(** * Sentinel Mesh: the smart-contract engine ([core/contracts.py])

    A shallow embedding of [ContractEngine] and a verification of its
    decision and bookkeeping logic.

    Modelling conventions.
    - Python [float]s ([confidence], [threshold], the readings of
      [time.time()]) are exact rationals [Q]; decimal literals are taken at
      face value.  Rounding, infinities and NaN are outside the model.
      Python compares a [float] with an [int] exactly, which is what the
      comparison against [cooldown] does here.
    - [str] is [string]; [set] is [gset string]; the [rate_limited] dict is a
      [gmap string Q]; the [details] dict is a [gmap string PyVal].
    - [self.contracts] is a list of distinct [Contract] objects; a rule is
      identified by its position in that list and mutated in place there.
    - The engine lives in a [World] together with the wall clock (the
      successive readings of [time.time()]) and the sequence of effects the
      program has performed so far, in program order. *)

From Stdlib Require Import ZArith QArith Lqa Lia.
From stdpp Require Import base gmap sets list strings sorting.

#[local] Set Warnings "-clear-no-such-hyp".

(** ** Numbers *)

Definition Qltb (x y : Q) : bool := negb (Qle_bool y x).

(** [round(x, 4)]: nearest multiple of 1/10000, ties to the even one. *)
Definition round_half_even (x : Q) : Z :=
  let n := Qnum x in
  let d := Z.pos (Qden x) in
  let q := (n / d)%Z in
  let r := (n mod d)%Z in
  match (2 * r ?= d)%Z with
  | Lt => q
  | Gt => (q + 1)%Z
  | Eq => if Z.even q then q else (q + 1)%Z
  end.

Definition round4 (x : Q) : Q :=
  Qred (round_half_even (x * 10000) # 10000).

(** ** Strings *)

(** [needle in s] on Python strings. *)
Fixpoint contains (needle s : string) : bool :=
  String.prefix needle s ||
  match s with
  | EmptyString => false
  | String _ s' => contains needle s'
  end.

(** ** Data model *)

Inductive ActionType := BLOCK_IP | RATE_LIMIT | QUARANTINE | ALERT_NETWORK.

Inductive TriggerType := ANOMALY_DETECTED | HIGH_CONFIDENCE | REPEATED_OFFENSE.

(** [ActionType.value] *)
Definition ActionType_value (a : ActionType) : string :=
  match a with
  | BLOCK_IP => "BLOCK_IP"
  | RATE_LIMIT => "RATE_LIMIT"
  | QUARANTINE => "QUARANTINE"
  | ALERT_NETWORK => "ALERT_NETWORK"
  end.

Definition TriggerType_value (t : TriggerType) : string :=
  match t with
  | ANOMALY_DETECTED => "ANOMALY_DETECTED"
  | HIGH_CONFIDENCE => "HIGH_CONFIDENCE"
  | REPEATED_OFFENSE => "REPEATED_OFFENSE"
  end.

Definition TriggerType_eqb (a b : TriggerType) : bool :=
  match a, b with
  | ANOMALY_DETECTED, ANOMALY_DETECTED
  | HIGH_CONFIDENCE, HIGH_CONFIDENCE
  | REPEATED_OFFENSE, REPEATED_OFFENSE => true
  | _, _ => false
  end.

Record Contract := mkContract {
  name : string;
  action : ActionType;
  trigger : TriggerType;
  threshold : Q;
  cooldown : Z;
  enabled : bool;
  last_triggered : Q
}.

(** [contract.last_triggered = t] *)
Definition set_last_triggered (t : Q) (c : Contract) : Contract :=
  mkContract (name c) (action c) (trigger c) (threshold c) (cooldown c)
             (enabled c) t.

(** The values a [details] dict holds. *)
Inductive PyVal :=
| PyStr (s : string)
| PyFloat (x : Q)
| PyBool (b : bool).

(** [ExecutedAction]; its [action] field is [executed_action] here, the
    name [action] being the projection of [Contract]. *)
Record ExecutedAction := mkExecutedAction {
  contract_name : string;
  executed_action : ActionType;
  timestamp : Q;
  details : gmap string PyVal
}.

Record ContractEngine := mkEngine {
  contracts : list Contract;
  action_history : list ExecutedAction;
  blocked_ips : gset string;
  rate_limited : gmap string Q
}.

(** The default contracts of [ContractEngine.__init__]. *)
Definition auto_block : Contract :=
  mkContract "Auto-Block High Threat" BLOCK_IP HIGH_CONFIDENCE
             (15 # 100) 120 true 0.

Definition rate_limit_on_anomaly : Contract :=
  mkContract "Rate Limit on Anomaly" RATE_LIMIT ANOMALY_DETECTED
             (5 # 100) 30 true 0.

Definition network_alert : Contract :=
  mkContract "Network Alert Broadcast" ALERT_NETWORK ANOMALY_DETECTED
             0 10 true 0.

(** [ContractEngine.__init__] (lines 71-102) *)
Definition init : ContractEngine :=
  mkEngine [auto_block; rate_limit_on_anomaly; network_alert] [] ∅ ∅.

(** ** Effects *)

(** What the program does to the world, one constructor per kind of
    statement with an effect. *)
Inductive Effect :=
| Print (line : string)
| BlocklistAdd (ip : string)
| RateLimitSet (ip : string) (limit_until : Q)
| Stamp (i : nat) (t : Q)
| HistoryAppend (a : ExecutedAction).

Record World := mkWorld {
  engine : ContractEngine;
  clock : nat → Q;      (* the n-th reading of [time.time()] *)
  ticks : nat;          (* readings taken so far *)
  trace : list Effect   (* effects performed so far, oldest first *)
}.

Definition M (A : Type) : Type := World → A * World.

Definition ret {A} (a : A) : M A := λ w, (a, w).

Definition bind {A B} (m : M A) (k : A → M B) : M B :=
  λ w, let (a, w') := m w in k a w'.

Notation "x <- m ;; k" := (bind m (λ x, k))
  (at level 20, m at level 99, k at level 200, format "x  <-  m  ;;  '/' k").
Notation "m ;; k" := (bind m (λ _, k))
  (at level 100, k at level 200, right associativity, format "m  ;;  '/' k").

Definition gets {A} (f : ContractEngine → A) : M A := λ w, (f (engine w), w).

(** A statement that mutates the engine: the mutation and its record in the
    trace. *)
Definition mutate (f : ContractEngine → ContractEngine) (e : Effect) : M unit :=
  λ w, (tt, mkWorld (f (engine w)) (clock w) (ticks w) (trace w ++ [e])).

(** [time.time()] *)
Definition time_time : M Q :=
  λ w, (clock w (ticks w), mkWorld (engine w) (clock w) (S (ticks w)) (trace w)).

(** [print(line)] *)
Definition print (line : string) : M unit :=
  λ w, (tt, mkWorld (engine w) (clock w) (ticks w) (trace w ++ [Print line])).

(** [self.blocked_ips.add(ip)] *)
Definition blocked_ips_add (ip : string) : M unit :=
  mutate (λ e, mkEngine (contracts e) (action_history e)
                        ({[ip]} ∪ blocked_ips e) (rate_limited e))
         (BlocklistAdd ip).

(** [self.rate_limited[ip] = t] *)
Definition rate_limited_set (ip : string) (t : Q) : M unit :=
  mutate (λ e, mkEngine (contracts e) (action_history e)
                        (blocked_ips e) (<[ip := t]> (rate_limited e)))
         (RateLimitSet ip t).

(** [contract.last_triggered = t], for the contract at position [i] *)
Definition stamp (i : nat) (t : Q) : M unit :=
  mutate (λ e, mkEngine (alter (set_last_triggered t) i (contracts e))
                        (action_history e) (blocked_ips e) (rate_limited e))
         (Stamp i t).

(** [self.action_history.append(a)] *)
Definition action_history_append (a : ExecutedAction) : M unit :=
  mutate (λ e, mkEngine (contracts e) (action_history e ++ [a])
                        (blocked_ips e) (rate_limited e))
         (HistoryAppend a).

(** ** The engine *)

(** [ContractEngine._execute_action] (lines 143-181) *)
Definition _execute_action (contract : Contract) (source_ip : string)
    (confidence : Q) : M ExecutedAction :=
  let details : gmap string PyVal :=
    <["simulated" := PyBool true]>
      (<["confidence" := PyFloat (round4 confidence)]>
         (<["source_ip" := PyStr source_ip]> ∅)) in
  details <-
    match action contract with
    | BLOCK_IP =>
        blocked_ips_add source_ip ;;
        let details :=
          <["message" := PyStr ("IP " +:+ source_ip +:+ " added to blocklist")]>
            details in
        print ("CONTRACT EXECUTED: " +:+ name contract +:+ " - Blocked "
                 +:+ source_ip) ;;
        ret details
    | RATE_LIMIT =>
        t <- time_time ;;
        rate_limited_set source_ip (t + 300)%Q ;;
        let details :=
          <["message" :=
              PyStr ("IP " +:+ source_ip +:+ " rate limited for 5 minutes")]>
            details in
        print ("CONTRACT EXECUTED: " +:+ name contract +:+ " - Rate limiting "
                 +:+ source_ip) ;;
        ret details
    | QUARANTINE =>
        let details :=
          <["message" :=
              PyStr ("Traffic from " +:+ source_ip
                       +:+ " quarantined for analysis")]>
            details in
        print ("CONTRACT EXECUTED: " +:+ name contract +:+ " - Quarantined "
                 +:+ source_ip) ;;
        ret details
    | ALERT_NETWORK =>
        let details :=
          <["message" := PyStr "Alert broadcasted to all peer nodes"]>
            details in
        print ("CONTRACT EXECUTED: " +:+ name contract
                 +:+ " - Network alert sent") ;;
        ret details
    end ;;
  t <- time_time ;;
  ret (mkExecutedAction (name contract) (action contract) t details).

(** The [trigger_matched] flag computed in the loop of [evaluate]
    (lines 128-132). *)
Definition trigger_matched (alert_type : string) (confidence : Q)
    (contract : Contract) : bool :=
  if TriggerType_eqb (trigger contract) ANOMALY_DETECTED
     && contains "ANOMALY" alert_type then true
  else if TriggerType_eqb (trigger contract) HIGH_CONFIDENCE
          && Qltb (threshold contract) confidence then true
  else false.

(** One iteration of the loop of [evaluate] (lines 120-139), on the contract
    at position [i]. *)
Definition eval_contract (alert_type : string) (confidence : Q)
    (source_ip : string) (current_time : Q) (i : nat) (contract : Contract)
    (executed : list ExecutedAction) : M (list ExecutedAction) :=
  if negb (enabled contract) then ret executed
  else if Qltb (current_time - last_triggered contract)
               (inject_Z (cooldown contract)) then ret executed
  else if trigger_matched alert_type confidence contract
          && Qle_bool (threshold contract) confidence then
    a <- _execute_action contract source_ip confidence ;;
    stamp i current_time ;;
    action_history_append a ;;
    ret (executed ++ [a])
  else ret executed.

(** [for contract in self.contracts: ...], from position [i] on. *)
Fixpoint eval_loop (alert_type : string) (confidence : Q) (source_ip : string)
    (current_time : Q) (i : nat) (cs : list Contract)
    (executed : list ExecutedAction) : M (list ExecutedAction) :=
  match cs with
  | [] => ret executed
  | contract :: rest =>
      executed' <- eval_contract alert_type confidence source_ip current_time
                                 i contract executed ;;
      eval_loop alert_type confidence source_ip current_time (S i) rest
                executed'
  end.

(** [ContractEngine.evaluate] (lines 104-141); [source_ip = None] is a call
    that leaves the argument out, so that the default applies. *)
Definition evaluate (alert_type : string) (confidence : Q)
    (source_ip : option string) : M (list ExecutedAction) :=
  let source_ip := default "unknown" source_ip in
  current_time <- time_time ;;
  cs <- gets contracts ;;
  eval_loop alert_type confidence source_ip current_time 0 cs [].

(** An entry of ["recent_actions"]. *)
Record RecentAction := mkRecentAction {
  ra_contract : string;
  ra_action : string;
  ra_time : Q;
  ra_details : gmap string PyVal
}.

(** The dict [get_status] returns. *)
Record Status := mkStatus {
  total_contracts : nat;
  enabled_contracts : nat;
  status_blocked_ips : list string;
  rate_limited_count : nat;
  total_actions_executed : nat;
  recent_actions : list RecentAction
}.

(** [xs[-n:]] for [n > 0] *)
Definition last_n {A} (n : nat) (xs : list A) : list A :=
  drop (length xs - n) xs.

(** The dict built for one record of ["recent_actions"]. *)
Definition record_view (a : ExecutedAction) : RecentAction :=
  mkRecentAction (contract_name a) (ActionType_value (executed_action a))
                 (timestamp a) (details a).

(** [ContractEngine.get_status] (lines 183-200) *)
Definition get_status : M Status :=
  cs <- gets contracts ;;
  blocked <- gets blocked_ips ;;
  limited <- gets rate_limited ;;
  history <- gets action_history ;;
  ret (mkStatus
         (length cs)
         (sum_list_with (λ _, 1%nat) (filter (λ c, enabled c = true) cs))
         (elements blocked)
         (size limited)
         (length history)
         (record_view <$> last_n 5 history)).

(** An entry of the list [get_contracts_info] returns. *)
Record ContractInfo := mkContractInfo {
  ci_name : string;
  ci_action : string;
  ci_trigger : string;
  ci_threshold : Q;
  ci_cooldown : Z;
  ci_enabled : bool
}.

(** The dict built for one contract of the listing. *)
Definition contract_info (c : Contract) : ContractInfo :=
  mkContractInfo (name c) (ActionType_value (action c))
                 (TriggerType_value (trigger c)) (threshold c) (cooldown c)
                 (enabled c).

(** [ContractEngine.get_contracts_info] (lines 202-214) *)
Definition get_contracts_info : M (list ContractInfo) :=
  cs <- gets contracts ;;
  ret (contract_info <$> cs).

(** ** Vocabulary of the statements *)

(** The guards of the loop body, taken together: the contract is enabled,
    off cooldown, its trigger matches and the confidence reaches its
    threshold. *)
Definition fires (alert_type : string) (confidence current_time : Q)
    (c : Contract) : bool :=
  enabled c
  && negb (Qltb (current_time - last_triggered c) (inject_Z (cooldown c)))
  && trigger_matched alert_type confidence c
  && Qle_bool (threshold c) confidence.

(** The effects [_execute_action] performs, when its first clock reading
    is [t]. *)
Definition exec_effects (c : Contract) (source_ip : string) (t : Q)
    : list Effect :=
  match action c with
  | BLOCK_IP =>
      [BlocklistAdd source_ip;
       Print ("CONTRACT EXECUTED: " +:+ name c +:+ " - Blocked " +:+ source_ip)]
  | RATE_LIMIT =>
      [RateLimitSet source_ip (t + 300)%Q;
       Print ("CONTRACT EXECUTED: " +:+ name c +:+ " - Rate limiting "
                +:+ source_ip)]
  | QUARANTINE =>
      [Print ("CONTRACT EXECUTED: " +:+ name c +:+ " - Quarantined "
                +:+ source_ip)]
  | ALERT_NETWORK =>
      [Print ("CONTRACT EXECUTED: " +:+ name c +:+ " - Network alert sent")]
  end.

(** A contract after the iteration on it: stamped when it fires. *)
Definition stamped (alert_type : string) (confidence current_time : Q)
    (c : Contract) : Contract :=
  if fires alert_type confidence current_time c
  then set_last_triggered current_time c else c.

(** A rule fires in a call when the sequence the call returns holds a record
    of it. *)
Definition fired (R : Contract) (executed : list ExecutedAction) : Prop :=
  ∃ a, a ∈ executed ∧ contract_name a = name R.

(** The trigger predicate, as the specification words it. *)
Definition trigger_spec (alert_kind : string) (confidence : Q) (R : Contract)
    : Prop :=
  match trigger R with
  | ANOMALY_DETECTED => ∃ pre post, alert_kind = pre +:+ "ANOMALY" +:+ post
  | HIGH_CONFIDENCE => (threshold R < confidence)%Q
  | REPEATED_OFFENSE => False
  end.

(** ** Sequences of calls *)

(** A call of [evaluate]: its alert type, confidence and source. *)
Definition Call : Type := string * Q * option string.

(** The world after a sequence of calls. *)
Fixpoint run (calls : list Call) (w : World) : World :=
  match calls with
  | [] => w
  | (alert_type, confidence, source_ip) :: rest =>
      run rest (evaluate alert_type confidence source_ip w).2
  end.


(** The records a sequence of calls returns, call after call. *)
Fixpoint run_records (calls : list Call) (w : World) : list ExecutedAction :=
  match calls with
  | [] => []
  | (alert_type, confidence, source_ip) :: rest =>
      (evaluate alert_type confidence source_ip w).1
      ++ run_records rest (evaluate alert_type confidence source_ip w).2
  end.

(** A clock that never runs backwards. *)
Definition monotone (clk : nat → Q) : Prop :=
  ∀ m n, m ≤ n → (clk m <= clk n)%Q.

(** Records in the order of their timestamps. *)
Definition chronological (history : list ExecutedAction) : Prop :=
  StronglySorted (λ a b, (timestamp a <= timestamp b)%Q) history.

(** The history is in order and holds no record from the future. *)
Definition settled (w : World) : Prop :=
  chronological (action_history (engine w))
  ∧ Forall (λ a, (timestamp a <= clock w (ticks w))%Q)
           (action_history (engine w)).

(** What a record says, given the call and the rule it is for. *)
Definition record_of (confidence : Q) (source_ip : string)
    (a : ExecutedAction) (c : Contract) : Prop :=
  contract_name a = name c
  ∧ executed_action a = action c
  ∧ details a !! "source_ip" = Some (PyStr source_ip)
  ∧ details a !! "confidence" = Some (PyFloat (round4 confidence))
  ∧ details a !! "simulated" = Some (PyBool true)
  ∧ ∃ message, details a !! "message" = Some (PyStr message).

(** ** Order of effects *)

(** The effects an action has on the stores and the console. *)
Definition action_effect (e : Effect) : bool :=
  match e with
  | Print _ | BlocklistAdd _ | RateLimitSet _ _ => true
  | Stamp _ _ | HistoryAppend _ => false
  end.

(** In the trace [tr], the stamping of rule [i] comes before an effect of an
    action: what "stamped before the side effects complete" says of a call
    in which rule [i] alone fires. *)
Definition stamped_before_effects_complete (tr : list Effect) (i : nat) : Prop :=
  ∃ pre t post e,
    tr = pre ++ Stamp i t :: post ∧ e ∈ post ∧ action_effect e = true.

(** ** Sample worlds *)

(** A clock that starts at [t0] and advances one second per reading. *)
Definition ticking (t0 : Z) : nat → Q := λ n, inject_Z (t0 + Z.of_nat n).

(** A fresh engine, started at epoch second 1000. *)
Definition fresh : World := mkWorld init (ticking 1000) 0 [].

(** The same with the broadcast rule switched off. *)
Definition quiet : World :=
  mkWorld (mkEngine [auto_block; rate_limit_on_anomaly;
                     mkContract "Network Alert Broadcast" ALERT_NETWORK
                                ANOMALY_DETECTED 0 10 false 0]
                    [] ∅ ∅)
          (ticking 1000) 0 [].

(** An engine holding the single rule [c], with the given clock. *)
Definition single (c : Contract) (clk : nat → Q) : World :=
  mkWorld (mkEngine [c] [] ∅ ∅) clk 0 [].

(** A clock that reads 1000 twice, then 1010: a second call comes ten
    seconds after a first one in which a block rule fired. *)
Definition ten_seconds_later : nat → Q :=
  λ n, if (n <? 2)%nat then 1000%Q else 1010%Q.

(** Five more reports of the same anomaly, one per second. *)
Definition five_repeats : list Call :=
  replicate 5 ("AI_ANOMALY_DETECTED", 20 # 100, Some "10.0.0.6")%Q.

(** * Verification *)

(** ** Comparisons on [Q] *)

Lemma Qltb_lt (x y : Q) : Qltb x y = true ↔ (x < y)%Q.
Proof.
  unfold Qltb. rewrite negb_true_iff, <- not_true_iff_false, Qle_bool_iff.
  split; [apply Qnot_le_lt | apply Qlt_not_le].
Qed.

(** ** Substrings *)

Lemma append_cons (a : Ascii.ascii) (s t : string) :
  String a s +:+ t = String a (s +:+ t).
Proof. reflexivity. Qed.

Lemma prefix_app (needle s : string) :
  String.prefix needle s = true ↔ ∃ post, s = needle +:+ post.
Proof.
  revert s. induction needle as [|a needle IH]; intros s; simpl.
  - destruct s; (split; [intros _; eexists; reflexivity | reflexivity]).
  - destruct s as [|b s]; simpl.
    + split; [discriminate | intros [post H]; discriminate].
    + setoid_rewrite append_cons.
      destruct (Ascii.ascii_dec a b) as [->|Hne].
      * rewrite IH. split; intros [post H]; exists post; congruence.
      * split; [discriminate | intros [post H]; congruence].
Qed.

(** [contains needle s] holds exactly when [needle] occurs in [s] as a
    contiguous block. *)
Lemma contains_substring (needle s : string) :
  contains needle s = true ↔ ∃ pre post, s = pre +:+ needle +:+ post.
Proof.
  induction s as [|a s IH]; cbn [contains].
  - rewrite orb_false_r. split.
    + intros H. exists "", "". by destruct needle.
    + intros (pre & post & H). destruct pre; [|discriminate].
      by destruct needle.
  - rewrite orb_true_iff, prefix_app, IH. split.
    + intros [[post H]|(pre & post & H)].
      * exists "", post. exact H.
      * exists (String a pre), post. rewrite append_cons. congruence.
    + intros (pre & post & H). destruct pre as [|b pre].
      * left. exists post. exact H.
      * right. exists pre, post. rewrite append_cons in H. congruence.
Qed.

(** ** The action executor *)

Section Executor.

Variables (contract : Contract) (source_ip : string) (confidence : Q).
Variable w : World.

Local Abbreviation r := (_execute_action contract source_ip confidence w).

Lemma exec_contracts : contracts (engine r.2) = contracts (engine w).
Proof. unfold _execute_action. by destruct (action contract). Qed.

Lemma exec_action_history :
  action_history (engine r.2) = action_history (engine w).
Proof. unfold _execute_action. by destruct (action contract). Qed.

Lemma exec_clock : clock r.2 = clock w.
Proof. unfold _execute_action. by destruct (action contract). Qed.

Lemma exec_blocked_ips :
  blocked_ips (engine r.2) =
  match action contract with
  | BLOCK_IP => {[source_ip]} ∪ blocked_ips (engine w)
  | _ => blocked_ips (engine w)
  end.
Proof. unfold _execute_action. by destruct (action contract). Qed.

Lemma exec_rate_limited :
  rate_limited (engine r.2) =
  match action contract with
  | RATE_LIMIT =>
      <[source_ip := (clock w (ticks w) + 300)%Q]> (rate_limited (engine w))
  | _ => rate_limited (engine w)
  end.
Proof. unfold _execute_action. by destruct (action contract). Qed.

Lemma exec_ticks :
  ticks r.2 =
  match action contract with
  | RATE_LIMIT => S (S (ticks w))
  | _ => S (ticks w)
  end.
Proof. unfold _execute_action. by destruct (action contract). Qed.

Lemma exec_contract_name : contract_name r.1 = name contract.
Proof. unfold _execute_action. by destruct (action contract). Qed.

Lemma exec_executed_action : executed_action r.1 = action contract.
Proof. unfold _execute_action. by destruct (action contract). Qed.

Lemma exec_source_ip : details r.1 !! "source_ip" = Some (PyStr source_ip).
Proof. unfold _execute_action. by destruct (action contract). Qed.

End Executor.

(** ** One iteration of the loop *)

Lemma exec_trace (c : Contract) (source_ip : string) (confidence : Q)
    (w : World) :
  trace (_execute_action c source_ip confidence w).2 =
  trace w ++ exec_effects c source_ip (clock w (ticks w)).
Proof.
  unfold _execute_action, exec_effects.
  destruct (action c); cbn; by rewrite <- ?app_assoc.
Qed.

Section Iteration.

Variables (alert_type : string) (confidence : Q) (source_ip : string).
Variable current_time : Q.

Local Abbreviation body :=
  (eval_contract alert_type confidence source_ip current_time).
Local Abbreviation exec c w := (_execute_action c source_ip confidence w).
Local Abbreviation fires' := (fires alert_type confidence current_time).

Lemma body_skips i c executed w :
  fires' c = false → body i c executed w = (executed, w).
Proof.
  unfold fires, eval_contract.
  destruct (enabled c), (Qltb _ (inject_Z _)); cbn; try done.
  by intros ->.
Qed.

Lemma body_fires i c executed w :
  fires' c = true →
  body i c executed w =
  let a := (exec c w).1 in
  let w1 := (exec c w).2 in
  (executed ++ [a],
   mkWorld (mkEngine (alter (set_last_triggered current_time) i
                            (contracts (engine w1)))
                     (action_history (engine w1) ++ [a])
                     (blocked_ips (engine w1)) (rate_limited (engine w1)))
           (clock w1) (ticks w1)
           (trace w1 ++ [Stamp i current_time; HistoryAppend a])).
Proof.
  unfold fires, eval_contract.
  destruct (enabled c), (Qltb _ (inject_Z _)); cbn; try done.
  intros ->. unfold bind. destruct (exec c w) as [a w1]. cbn.
  by rewrite <- app_assoc.
Qed.

Lemma loop_cons i c cs executed w :
  eval_loop alert_type confidence source_ip current_time i (c :: cs)
            executed w =
  eval_loop alert_type confidence source_ip current_time (S i) cs
            (body i c executed w).1 (body i c executed w).2.
Proof. cbn. unfold bind. by destruct (body i c executed w). Qed.

(** The rule of the [for] loop: a property that holds before the loop, and
    that the iteration on the [j]-th contract carries from [j] contracts
    done to [j + 1], holds after it with all of them done. *)
Lemma eval_loop_inv cs : ∀ (P : nat → list ExecutedAction → World → Prop)
    i executed w,
  P 0%nat executed w →
  (∀ j c ex' w',
      cs !! j = Some c → P j ex' w' →
      P (S j) (body (i + j) c ex' w').1 (body (i + j) c ex' w').2) →
  P (length cs)
    (eval_loop alert_type confidence source_ip current_time i cs executed w).1
    (eval_loop alert_type confidence source_ip current_time i cs executed w).2.
Proof.
  induction cs as [|c cs IH]; intros P i executed w H0 Hstep; [done|].
  rewrite loop_cons. cbn [length].
  apply (IH (λ j, P (S j))).
  - specialize (Hstep 0%nat c executed w eq_refl H0).
    by rewrite Nat.add_0_r in Hstep.
  - intros j c' ex' w' Hj HP. rewrite Nat.add_succ_comm. by apply Hstep.
Qed.

End Iteration.

Lemma evaluate_unfold (alert_type : string) (confidence : Q)
    (source_ip : option string) (w : World) :
  evaluate alert_type confidence source_ip w =
  eval_loop alert_type confidence (default "unknown" source_ip)
            (clock w (ticks w)) 0 (contracts (engine w)) []
            (mkWorld (engine w) (clock w) (S (ticks w)) (trace w)).
Proof. reflexivity. Qed.

Lemma evaluate_Some (alert_type : string) (confidence : Q)
    (source_ip : string) (w : World) :
  evaluate alert_type confidence (Some source_ip) w =
  eval_loop alert_type confidence source_ip
            (clock w (ticks w)) 0 (contracts (engine w)) []
            (mkWorld (engine w) (clock w) (S (ticks w)) (trace w)).
Proof. reflexivity. Qed.

(** ** The whole loop *)

Section Loop.

Variables (alert_type : string) (confidence : Q) (source_ip : string).
Variable current_time : Q.

Local Abbreviation loop :=
  (eval_loop alert_type confidence source_ip current_time).
Local Abbreviation fires' := (fires alert_type confidence current_time).

Local Abbreviation stamped := (stamped alert_type confidence current_time).



(** The records returned are those of the contracts that fire, in the
    order of the store. *)
Lemma loop_names cs : ∀ i executed w,
  contract_name <$> (loop i cs executed w).1 =
  (contract_name <$> executed) ++ (name <$> filter (λ c, fires' c = true) cs).
Proof.
  induction cs as [|c cs IH]; intros i executed w.
  - cbn. by rewrite app_nil_r.
  - rewrite loop_cons, IH. destruct (fires' c) eqn:Hc.
    + rewrite body_fires by done. cbn [fst snd].
      rewrite filter_cons_True by done.
      rewrite fmap_app, fmap_cons, <- app_assoc. cbn [fmap list_fmap app].
      by rewrite exec_contract_name.
    + rewrite body_skips by done.
      rewrite filter_cons_False; [done|]. by rewrite Hc.
Qed.

(** The loop stamps exactly the contracts that fire. *)
Lemma loop_contracts cs : ∀ i executed w pre,
  contracts (engine w) = pre ++ cs → length pre = i →
  contracts (engine (loop i cs executed w).2) = pre ++ (stamped <$> cs).
Proof.
  induction cs as [|c cs IH]; intros i executed w pre Hw Hi.
  - done.
  - rewrite loop_cons, fmap_cons. unfold stamped at 1.
    destruct (fires' c) eqn:Hc.
    + rewrite body_fires by done. cbn [fst snd].
      rewrite (IH _ _ _ (pre ++ [set_last_triggered current_time c])).
      * by rewrite <- app_assoc.
      * cbn. rewrite exec_contracts, Hw, <- Hi.
        rewrite alter_app_r_alt, Nat.sub_diag by done.
        cbn. by rewrite <- app_assoc.
      * rewrite length_app. cbn. lia.
    + rewrite body_skips by done. cbn [fst snd].
      rewrite (IH _ _ _ (pre ++ [c])).
      * by rewrite <- app_assoc.
      * by rewrite Hw, <- app_assoc.
      * rewrite length_app. cbn. lia.
Qed.

Lemma loop_clock cs : ∀ i executed w,
  clock (loop i cs executed w).2 = clock w.
Proof.
  induction cs as [|c cs IH]; intros i executed w; [done|].
  rewrite loop_cons, IH. destruct (fires' c) eqn:Hc.
  - rewrite body_fires by done. cbn. by rewrite exec_clock.
  - by rewrite body_skips.
Qed.

(** Every record returned is appended to the history, in order. *)
Lemma loop_history cs : ∀ i executed w,
  ∃ new, (loop i cs executed w).1 = executed ++ new
         ∧ action_history (engine (loop i cs executed w).2)
           = action_history (engine w) ++ new.
Proof.
  induction cs as [|c cs IH]; intros i executed w.
  - exists []. by rewrite !app_nil_r.
  - rewrite loop_cons. destruct (fires' c) eqn:Hc.
    + rewrite body_fires by done. cbn [fst snd].
      edestruct IH as (new & -> & ->). cbn. rewrite exec_action_history.
      eexists (_ :: new). by rewrite <- !app_assoc.
    + rewrite body_skips by done. apply IH.
Qed.

End Loop.

(** ** [evaluate] *)

Lemma trigger_matched_spec (alert_type : string) (confidence : Q) (c : Contract) :
  trigger_matched alert_type confidence c = true ↔
  trigger_spec alert_type confidence c.
Proof.
  unfold trigger_matched, trigger_spec. destruct (trigger c); cbn.
  - rewrite <- contains_substring. by destruct (contains _ _).
  - rewrite <- Qltb_lt. by destruct (Qltb _ _).
  - split; [discriminate | done].
Qed.

Lemma fires_spec (alert_type : string) (confidence current_time : Q)
    (c : Contract) :
  fires alert_type confidence current_time c = true ↔
  enabled c = true
  ∧ ¬ (current_time - last_triggered c < inject_Z (cooldown c))%Q
  ∧ trigger_spec alert_type confidence c
  ∧ (threshold c <= confidence)%Q.
Proof.
  unfold fires.
  rewrite !andb_true_iff, negb_true_iff, <- not_true_iff_false.
  rewrite Qltb_lt, trigger_matched_spec, Qle_bool_iff. tauto.
Qed.

Lemma NoDup_fmap_eq {A B} (f : A → B) (l : list A) (x y : A) :
  NoDup (f <$> l) → x ∈ l → y ∈ l → f x = f y → x = y.
Proof.
  induction l as [|z l IH]; cbn; intros Hnd Hx Hy Hf.
  - by apply elem_of_nil in Hx.
  - apply NoDup_cons in Hnd as [Hz Hnd].
    apply elem_of_cons in Hx as [->|Hx], Hy as [->|Hy]; [done| | |by apply IH].
    + exfalso. apply Hz. rewrite Hf. by apply list_elem_of_fmap_2.
    + exfalso. apply Hz. rewrite <- Hf. by apply list_elem_of_fmap_2.
Qed.

Section Evaluate.

Variables (alert_type : string) (confidence : Q) (source_ip : option string).
Variable w : World.

Local Abbreviation r := (evaluate alert_type confidence source_ip w).
Local Abbreviation now := (clock w (ticks w)).
Local Abbreviation fires' := (fires alert_type confidence now).

Lemma evaluate_names :
  contract_name <$> r.1 =
  name <$> filter (λ c, fires' c = true) (contracts (engine w)).
Proof. by rewrite evaluate_unfold, loop_names. Qed.

Lemma evaluate_contracts :
  contracts (engine r.2) =
  stamped alert_type confidence now <$> contracts (engine w).
Proof.
  rewrite evaluate_unfold. by rewrite (loop_contracts _ _ _ _ _ _ _ _ []).
Qed.

Lemma evaluate_clock : clock r.2 = clock w.
Proof. by rewrite evaluate_unfold, loop_clock. Qed.

Lemma evaluate_history :
  action_history (engine r.2) = action_history (engine w) ++ r.1.
Proof.
  rewrite evaluate_unfold.
  edestruct (loop_history alert_type confidence (default "unknown" source_ip))
    as (new & -> & ->).
  done.
Qed.


(** Where names identify the rules, a rule fires exactly when it passes
    the guards. *)
Lemma fired_iff_fires R :
  NoDup (name <$> contracts (engine w)) →
  R ∈ contracts (engine w) →
  fired R r.1 ↔ fires' R = true.
Proof.
  intros Hnd HR. unfold fired. split.
  - intros (a & Ha & Hname).
    apply (list_elem_of_fmap_2 contract_name) in Ha.
    rewrite evaluate_names, Hname in Ha.
    apply list_elem_of_fmap in Ha as (c & Hc & Hin).
    apply list_elem_of_filter in Hin as [Hf Hin].
    by rewrite (NoDup_fmap_eq name _ R c Hnd HR Hin Hc).
  - intros Hf.
    assert (name R ∈ contract_name <$> r.1) as Hin.
    { rewrite evaluate_names. apply list_elem_of_fmap_2.
      by apply list_elem_of_filter. }
    apply list_elem_of_fmap in Hin as (a & Ha & Hin). by exists a.
Qed.

End Evaluate.

(** C1.  In every call of [evaluate], a rule that is enabled and off
    cooldown fires (a record of it is in the returned sequence) if and only
    if its trigger predicate matches and the confidence is at least its
    threshold; [ANOMALY_DETECTED] matches when the alert type contains
    ["ANOMALY"], [HIGH_CONFIDENCE] when the confidence is strictly above
    the threshold, [REPEATED_OFFENSE] never.  Rules are told apart by their
    names, which are unique in the store. *)
Theorem evaluate_fires_iff (w : World) (alert_kind : string) (confidence : Q)
    (source_id : option string) (R : Contract) :
  NoDup (name <$> contracts (engine w)) →
  R ∈ contracts (engine w) →
  enabled R = true →
  ¬ (clock w (ticks w) - last_triggered R < inject_Z (cooldown R))%Q →
  fired R (evaluate alert_kind confidence source_id w).1
  ↔ trigger_spec alert_kind confidence R ∧ (threshold R <= confidence)%Q.
Proof.
  intros Hnd HR Hen Hcd. rewrite fired_iff_fires, fires_spec by done. tauto.
Qed.

Lemma evaluate_fires_iff_witness :
  NoDup (name <$> contracts (engine fresh))
  ∧ rate_limit_on_anomaly ∈ contracts (engine fresh)
  ∧ enabled rate_limit_on_anomaly = true
  ∧ ¬ (clock fresh (ticks fresh) - last_triggered rate_limit_on_anomaly
       < inject_Z (cooldown rate_limit_on_anomaly))%Q
  ∧ (fired rate_limit_on_anomaly
           (evaluate "AI_ANOMALY_DETECTED" (10 # 100) (Some "10.0.0.5") fresh).1
     ↔ trigger_spec "AI_ANOMALY_DETECTED" (10 # 100) rate_limit_on_anomaly
       ∧ (threshold rate_limit_on_anomaly <= 10 # 100)%Q).
Proof.
  assert (NoDup (name <$> contracts (engine fresh))) as H1.
  { apply (bool_decide_unpack _). vm_compute. exact I. }
  assert (rate_limit_on_anomaly ∈ contracts (engine fresh)) as H2.
  { apply list_elem_of_lookup. exists 1%nat. reflexivity. }
  assert (¬ (clock fresh (ticks fresh) - last_triggered rate_limit_on_anomaly
             < inject_Z (cooldown rate_limit_on_anomaly))%Q) as H3.
  { intros H. vm_compute in H. discriminate. }
  split; [exact H1|]. split; [exact H2|]. split; [reflexivity|].
  split; [exact H3|].
  exact (evaluate_fires_iff fresh "AI_ANOMALY_DETECTED" (10 # 100)
           (Some "10.0.0.5") rate_limit_on_anomaly H1 H2 eq_refl H3).
Defined.



(** ** Cooldown *)








(** ** What a call does to the blocklist and the rate-limit map *)

Section Stores.

Variables (alert_type : string) (confidence : Q) (source_ip : string).
Variable current_time : Q.

Local Abbreviation loop :=
  (eval_loop alert_type confidence source_ip current_time).
Local Abbreviation body :=
  (eval_contract alert_type confidence source_ip current_time).
Local Abbreviation fires' := (fires alert_type confidence current_time).

Lemma body_clock i c executed w : clock (body i c executed w).2 = clock w.
Proof.
  destruct (fires' c) eqn:Hc.
  - rewrite body_fires by done. cbn. apply exec_clock.
  - by rewrite body_skips.
Qed.

Lemma body_ticks i c executed w : ticks w ≤ ticks (body i c executed w).2.
Proof.
  destruct (fires' c) eqn:Hc.
  - rewrite body_fires by done. cbn. rewrite exec_ticks.
    destruct (action c); lia.
  - by rewrite body_skips.
Qed.

Lemma body_blocked_ips i c executed w :
  blocked_ips (engine (body i c executed w).2) =
  if fires' c then
    match action c with
    | BLOCK_IP => {[source_ip]} ∪ blocked_ips (engine w)
    | _ => blocked_ips (engine w)
    end
  else blocked_ips (engine w).
Proof.
  destruct (fires' c) eqn:Hc.
  - rewrite body_fires by done. cbn. apply exec_blocked_ips.
  - by rewrite body_skips.
Qed.

Lemma body_rate_limited i c executed w :
  rate_limited (engine (body i c executed w).2) =
  if fires' c then
    match action c with
    | RATE_LIMIT =>
        <[source_ip := (clock w (ticks w) + 300)%Q]> (rate_limited (engine w))
    | _ => rate_limited (engine w)
    end
  else rate_limited (engine w).
Proof.
  destruct (fires' c) eqn:Hc.
  - rewrite body_fires by done. cbn. apply exec_rate_limited.
  - by rewrite body_skips.
Qed.

Lemma body_source_ip i c executed w :
  Forall (λ a, details a !! "source_ip" = Some (PyStr source_ip)) executed →
  Forall (λ a, details a !! "source_ip" = Some (PyStr source_ip))
         (body i c executed w).1.
Proof.
  intros H. destruct (fires' c) eqn:Hc.
  - rewrite body_fires by done. cbn. apply Forall_app. split; [done|].
    apply Forall_singleton, exec_source_ip.
  - by rewrite body_skips.
Qed.

(** The loop touches the two stores at the key [source_ip] only, and only
    by adding it to the blocklist and by setting its expiry. *)
Lemma loop_stores cs i executed w :
  let r := loop i cs executed w in
  clock r.2 = clock w
  ∧ ticks w ≤ ticks r.2
  ∧ blocked_ips (engine w) ⊆ blocked_ips (engine r.2)
  ∧ blocked_ips (engine r.2) ⊆ {[source_ip]} ∪ blocked_ips (engine w)
  ∧ (∀ ip, ip ≠ source_ip →
           rate_limited (engine r.2) !! ip = rate_limited (engine w) !! ip)
  ∧ (Forall (λ a, details a !! "source_ip" = Some (PyStr source_ip)) executed →
     Forall (λ a, details a !! "source_ip" = Some (PyStr source_ip)) r.1).
Proof.
  apply (eval_loop_inv _ _ _ _ cs (λ _ ex' w',
    clock w' = clock w
    ∧ ticks w ≤ ticks w'
    ∧ blocked_ips (engine w) ⊆ blocked_ips (engine w')
    ∧ blocked_ips (engine w') ⊆ {[source_ip]} ∪ blocked_ips (engine w)
    ∧ (∀ ip, ip ≠ source_ip →
             rate_limited (engine w') !! ip = rate_limited (engine w) !! ip)
    ∧ (Forall (λ a, details a !! "source_ip" = Some (PyStr source_ip)) executed →
       Forall (λ a, details a !! "source_ip" = Some (PyStr source_ip)) ex'))).
  - repeat split; try done. set_solver.
  - intros j c ex' w' _ (Hcl & Htk & Hb1 & Hb2 & Hrl & Hsrc).
    rewrite body_clock, body_blocked_ips, body_rate_limited.
    repeat split.
    + done.
    + pose proof (body_ticks (i + j) c ex' w'). lia.
    + destruct (fires' c), (action c); try done; set_solver.
    + destruct (fires' c), (action c); try done; set_solver.
    + intros ip Hip. rewrite <- Hrl by done.
      destruct (fires' c), (action c); try done.
      by rewrite lookup_insert_ne.
    + intros Hex. by apply body_source_ip, Hsrc.
Qed.

(** A firing rate-limit rule leaves the expiry of [source_ip] at 300
    seconds past a clock reading of the call, the last such rule winning. *)
Lemma loop_rate_limit cs i executed w :
  let r := loop i cs executed w in
  (∃ R, R ∈ cs ∧ action R = RATE_LIMIT ∧ fires' R = true) →
  ∃ k, ticks w ≤ k < ticks r.2
       ∧ rate_limited (engine r.2) !! source_ip = Some (clock w k + 300)%Q.
Proof.
  intros r Hex. subst r.
  enough (clock (loop i cs executed w).2 = clock w
          ∧ ticks w ≤ ticks (loop i cs executed w).2
          ∧ ((∃ R, R ∈ take (length cs) cs ∧ action R = RATE_LIMIT
                   ∧ fires' R = true) →
             ∃ k, ticks w ≤ k < ticks (loop i cs executed w).2
                  ∧ rate_limited (engine (loop i cs executed w).2) !! source_ip
                    = Some (clock w k + 300)%Q)) as (_ & _ & H).
  { apply H. by rewrite take_ge. }
  clear Hex.
  apply (eval_loop_inv _ _ _ _ cs (λ j ex' w',
    clock w' = clock w ∧ ticks w ≤ ticks w'
    ∧ ((∃ R, R ∈ take j cs ∧ action R = RATE_LIMIT ∧ fires' R = true) →
       ∃ k, ticks w ≤ k < ticks w'
            ∧ rate_limited (engine w') !! source_ip = Some (clock w k + 300)%Q))).
  - repeat split; try done. intros (R & HR & _). by apply elem_of_nil in HR.
  - intros j c ex' w' Hj (Hcl & Htk & IH).
    rewrite body_clock, body_rate_limited. repeat split; [done| |].
    { pose proof (body_ticks (i + j) c ex' w'). lia. }
    intros (R & HR & Hact & Hf).
    rewrite (take_S_r _ _ _ Hj) in HR.
    destruct (fires' c) eqn:Hc.
    + rewrite body_fires by done. cbn [snd ticks]. rewrite exec_ticks.
      destruct (action c) eqn:Hac.
      2:{ exists (ticks w'). split; [lia|].
          by rewrite lookup_insert_eq, Hcl. }
      all: apply elem_of_app in HR as [HR|HR];
        [|apply list_elem_of_singleton in HR; congruence];
        destruct IH as (k & Hk & Hlk); [by exists R|];
        exists k; split; [lia | done].
    + rewrite body_skips by done. cbn [snd].
      apply elem_of_app in HR as [HR|HR];
        [|apply list_elem_of_singleton in HR; congruence].
      apply IH. by exists R.
Qed.

(** A firing block rule leaves [source_ip] on the blocklist. *)
Lemma loop_blocks cs i executed w :
  (∃ R, R ∈ cs ∧ action R = BLOCK_IP ∧ fires' R = true) →
  source_ip ∈ blocked_ips (engine (loop i cs executed w).2).
Proof.
  intros Hex.
  enough ((∃ R, R ∈ take (length cs) cs ∧ action R = BLOCK_IP
                ∧ fires' R = true) →
          source_ip ∈ blocked_ips (engine (loop i cs executed w).2)) as H.
  { apply H. by rewrite take_ge. }
  clear Hex.
  apply (eval_loop_inv _ _ _ _ cs (λ j ex' w',
    (∃ R, R ∈ take j cs ∧ action R = BLOCK_IP ∧ fires' R = true) →
    source_ip ∈ blocked_ips (engine w'))).
  - intros (R & HR & _). by apply elem_of_nil in HR.
  - intros j c ex' w' Hj IH (R & HR & Hact & Hf).
    rewrite (take_S_r _ _ _ Hj) in HR. rewrite body_blocked_ips.
    apply elem_of_app in HR as [HR|HR].
    + assert (source_ip ∈ blocked_ips (engine w')) by (apply IH; by exists R).
      destruct (fires' c), (action c); try done; set_solver.
    + apply list_elem_of_singleton in HR as <-. rewrite Hf, Hact. set_solver.
Qed.

End Stores.

(** ** The actions *)



(** C6.  Blocking is idempotent on the blocklist.  Executing a [BLOCK_IP]
    action for a source that is already blocked leaves the blocklist as it
    is (same members, same size); executing it twice for a source gives the
    blocklist that executing it once gives; a call of [evaluate] for an
    already blocked source leaves the blocklist as it is; and so does any
    call for the source that follows one in which the block rule fired. *)
Theorem block_source_idempotent (R : Contract) (source_id : string) :
  action R = BLOCK_IP →
  (∀ confidence w,
      source_id ∈ blocked_ips (engine w) →
      blocked_ips (engine (_execute_action R source_id confidence w).2)
      = blocked_ips (engine w)
      ∧ size (blocked_ips (engine (_execute_action R source_id confidence w).2))
        = size (blocked_ips (engine w)))
  ∧ (∀ confidence confidence' w,
        blocked_ips
          (engine (_execute_action R source_id confidence'
                     (_execute_action R source_id confidence w).2).2)
        = blocked_ips (engine (_execute_action R source_id confidence w).2))
  ∧ (∀ alert_kind confidence w,
        source_id ∈ blocked_ips (engine w) →
        blocked_ips (engine (evaluate alert_kind confidence (Some source_id) w).2)
        = blocked_ips (engine w))
  ∧ (∀ alert_kind confidence alert_kind' confidence' w,
        R ∈ contracts (engine w) →
        fires alert_kind confidence (clock w (ticks w)) R = true →
        let once := (evaluate alert_kind confidence (Some source_id) w).2 in
        let twice := (evaluate alert_kind' confidence' (Some source_id) once).2 in
        blocked_ips (engine twice) = blocked_ips (engine once)).
Proof.
  intros Hact.
  assert (∀ alert_kind confidence w,
             source_id ∈ blocked_ips (engine w) →
             blocked_ips
               (engine (evaluate alert_kind confidence (Some source_id) w).2)
             = blocked_ips (engine w)) as Hkeep.
  { intros alert_kind confidence w Hin. rewrite evaluate_Some.
    destruct (loop_stores alert_kind confidence source_id (clock w (ticks w))
                (contracts (engine w)) 0 []
                (mkWorld (engine w) (clock w) (S (ticks w)) (trace w)))
      as (_ & _ & Hsub & Hsup & _).
    cbn in Hsub, Hsup. set_solver. }
  split; [|split; [|split]].
  - intros confidence w Hin. rewrite exec_blocked_ips, Hact.
    assert ({[source_id]} ∪ blocked_ips (engine w) = blocked_ips (engine w))
      as -> by set_solver.
    done.
  - intros confidence confidence' w. rewrite !exec_blocked_ips, Hact.
    set_solver.
  - exact Hkeep.
  - intros alert_kind confidence alert_kind' confidence' w HR Hf once twice.
    subst once twice. apply Hkeep. rewrite evaluate_Some.
    apply loop_blocks. by exists R.
Qed.

Lemma block_source_idempotent_witness :
  action auto_block = BLOCK_IP
  ∧ "10.0.0.6" ∈ blocked_ips
      (engine (evaluate "AI_ANOMALY_DETECTED" (20 # 100) (Some "10.0.0.6")
                        fresh).2)
  ∧ blocked_ips
      (engine (_execute_action auto_block "10.0.0.6" (20 # 100)
                 (evaluate "AI_ANOMALY_DETECTED" (20 # 100) (Some "10.0.0.6")
                           fresh).2).2)
    = blocked_ips
        (engine (evaluate "AI_ANOMALY_DETECTED" (20 # 100) (Some "10.0.0.6")
                          fresh).2).
Proof.
  assert ("10.0.0.6" ∈ blocked_ips
            (engine (evaluate "AI_ANOMALY_DETECTED" (20 # 100)
                              (Some "10.0.0.6") fresh).2)) as H.
  { apply (bool_decide_unpack _). vm_compute. exact I. }
  split; [reflexivity|]. split; [exact H|].
  exact (proj1 (proj1 (block_source_idempotent auto_block "10.0.0.6" eq_refl)
                      (20 # 100) _ H)).
Defined.

(** C7.  Executing a [QUARANTINE] or [ALERT_NETWORK] action produces the
    record of the rule and changes nothing the engine holds: the blocklist
    and the rate-limit map, as the rest of the engine, are as before; its
    one effect is a line on the console. *)
Theorem record_only_actions (R : Contract) (source_id : string)
    (confidence : Q) (w : World) :
  action R = QUARANTINE ∨ action R = ALERT_NETWORK →
  let r := _execute_action R source_id confidence w in
  blocked_ips (engine r.2) = blocked_ips (engine w)
  ∧ rate_limited (engine r.2) = rate_limited (engine w)
  ∧ engine r.2 = engine w
  ∧ contract_name r.1 = name R
  ∧ executed_action r.1 = action R
  ∧ ∃ line, trace r.2 = trace w ++ [Print line].
Proof.
  intros Hact r. subst r. unfold _execute_action.
  destruct Hact as [-> | ->]; cbn; repeat split; eauto.
Qed.

Lemma record_only_actions_witness :
  (action network_alert = QUARANTINE ∨ action network_alert = ALERT_NETWORK)
  ∧ blocked_ips
      (engine (_execute_action network_alert "10.0.0.5" (10 # 100) fresh).2)
    = blocked_ips (engine fresh)
  ∧ rate_limited
      (engine (_execute_action network_alert "10.0.0.5" (10 # 100) fresh).2)
    = rate_limited (engine fresh).
Proof.
  assert (action network_alert = QUARANTINE
          ∨ action network_alert = ALERT_NETWORK) as H by (right; reflexivity).
  split; [exact H|].
  destruct (record_only_actions network_alert "10.0.0.5" (10 # 100) fresh H)
    as (Hb & Hr & _).
  split; [exact Hb | exact Hr].
Defined.

(** ** Status *)



(** ** The order of effects within a call *)

Lemma exec_effects_action (c : Contract) (source_ip : string) (t : Q) :
  Forall (λ e, action_effect e = true) (exec_effects c source_ip t).
Proof. unfold exec_effects. destruct (action c); by repeat constructor. Qed.

Lemma exec_effects_no_stamp (c : Contract) (source_ip : string) (t : Q)
    (i : nat) (t' : Q) :
  Stamp i t' ∉ exec_effects c source_ip t.
Proof.
  intros Hin.
  by apply (proj1 (Forall_forall _ _) (exec_effects_action c source_ip t)) in Hin.
Qed.

Section Order.

Variables (alert_type : string) (confidence : Q) (source_ip : string).
Variable current_time : Q.

Local Abbreviation loop :=
  (eval_loop alert_type confidence source_ip current_time).
Local Abbreviation body :=
  (eval_contract alert_type confidence source_ip current_time).
Local Abbreviation fires' := (fires alert_type confidence current_time).

(** The effects of one iteration: none, or those of the action, then the
    stamp, then the entry in the history. *)
Lemma body_trace i c executed w :
  trace (body i c executed w).2 =
  trace w ++
  (if fires' c
   then exec_effects c source_ip (clock w (ticks w))
        ++ [Stamp i current_time;
            HistoryAppend (_execute_action c source_ip confidence w).1]
   else []).
Proof.
  destruct (fires' c) eqn:Hc.
  - rewrite body_fires by done. cbn. by rewrite exec_trace, <- app_assoc.
  - rewrite body_skips by done. by rewrite app_nil_r.
Qed.

Lemma body_executed i c executed w :
  (body i c executed w).1 =
  executed ++
  (if fires' c then [(_execute_action c source_ip confidence w).1] else []).
Proof.
  destruct (fires' c) eqn:Hc.
  - by rewrite body_fires.
  - rewrite body_skips by done. by rewrite app_nil_r.
Qed.

(** In the trace of the loop, the rule at position [i], when it fires, is
    stamped once, right after the effects of its action and right before
    its record enters the history. *)
Lemma loop_order cs executed w i R :
  cs !! i = Some R → fires' R = true →
  let r := loop 0 cs executed w in
  ∃ before t a after,
    trace r.2 = trace w ++ before ++ exec_effects R source_ip t
                ++ [Stamp i current_time; HistoryAppend a] ++ after
    ∧ a ∈ r.1 ∧ contract_name a = name R
    ∧ (∀ t', Stamp i t' ∉ before) ∧ (∀ t', Stamp i t' ∉ after).
Proof.
  intros Hi Hf r. subst r.
  enough ((∃ tr, trace (loop 0 cs executed w).2 = trace w ++ tr
                 ∧ ∀ i' t', Stamp i' t' ∈ tr → i' < length cs)
          ∧ (i < length cs →
             ∃ before t a after,
               trace (loop 0 cs executed w).2 =
               trace w ++ before ++ exec_effects R source_ip t
               ++ [Stamp i current_time; HistoryAppend a] ++ after
               ∧ a ∈ (loop 0 cs executed w).1 ∧ contract_name a = name R
               ∧ (∀ t', Stamp i t' ∉ before) ∧ (∀ t', Stamp i t' ∉ after)))
    as [_ H].
  { apply H. by apply lookup_lt_Some in Hi. }
  apply (eval_loop_inv _ _ _ _ cs (λ j ex' w',
    (∃ tr, trace w' = trace w ++ tr ∧ ∀ i' t', Stamp i' t' ∈ tr → i' < j)
    ∧ (i < j →
       ∃ before t a after,
         trace w' = trace w ++ before ++ exec_effects R source_ip t
                    ++ [Stamp i current_time; HistoryAppend a] ++ after
         ∧ a ∈ ex' ∧ contract_name a = name R
         ∧ (∀ t', Stamp i t' ∉ before) ∧ (∀ t', Stamp i t' ∉ after)))).
  - split; [|lia]. exists []. split; [by rewrite app_nil_r|].
    intros i' t' Hin. by apply elem_of_nil in Hin.
  - intros j c ex' w' Hj [(tr & Htr & Hstamps) IH]. cbn [Nat.add].
    rewrite body_trace, body_executed.
    set (extra := if fires' c
                  then exec_effects c source_ip (clock w' (ticks w'))
                       ++ [Stamp j current_time;
                           HistoryAppend
                             (_execute_action c source_ip confidence w').1]
                  else []).
    assert (∀ i' t', Stamp i' t' ∈ extra → i' = j) as Hextra.
    { intros i' t' Hin. subst extra. destruct (fires' c).
      - apply elem_of_app in Hin as [Hin|Hin].
        + by apply exec_effects_no_stamp in Hin.
        + apply elem_of_cons in Hin as [Hin|Hin]; [congruence|].
          apply list_elem_of_singleton in Hin. discriminate.
      - by apply elem_of_nil in Hin. }
    split.
    + exists (tr ++ extra). split; [by rewrite Htr, <- app_assoc|].
      intros i' t' [Hin|Hin]%elem_of_app.
      * apply Hstamps in Hin. lia.
      * apply Hextra in Hin. lia.
    + intros Hlt. destruct (decide (i = j)) as [->|Hne].
      * rewrite Hi in Hj. injection Hj as <-. subst extra. rewrite Hf.
        exists tr, (clock w' (ticks w')),
               (_execute_action R source_ip confidence w').1, [].
        split; [by rewrite Htr, <- !app_assoc|].
        split; [apply elem_of_app; right; by apply list_elem_of_singleton|].
        split; [apply exec_contract_name|].
        split; [|intros t' Hin; by apply elem_of_nil in Hin].
        intros t' Hin. apply Hstamps in Hin. lia.
      * destruct IH as (before & t & a & after & Hw' & Ha & Hn & Hb & Haf);
          [lia|].
        exists before, t, a, (after ++ extra).
        split; [by rewrite Hw', <- !app_assoc|].
        split; [apply elem_of_app; by left|].
        split; [done|]. split; [done|].
        intros t' [Hin|Hin]%elem_of_app; [by apply Haf in Hin|].
        by apply Hextra in Hin.
Qed.

End Order.

(** C3, as the code has it.  In a call of [evaluate], a rule that fires has
    its [last_triggered] set to the time the call read on entry, by a single
    write; that write comes after all the effects of the rule's action (the
    change of the blocklist or of the rate-limit map, and the console line)
    and right before the record is appended to the history.  The action
    itself never writes [last_triggered]. *)
Theorem stamp_follows_action (w : World) (alert_kind : string)
    (confidence : Q) (source_id : option string) (i : nat) (R : Contract) :
  contracts (engine w) !! i = Some R →
  fires alert_kind confidence (clock w (ticks w)) R = true →
  let now := clock w (ticks w) in
  let source_ip := default "unknown" source_id in
  let r := evaluate alert_kind confidence source_id w in
  last_triggered <$> contracts (engine r.2) !! i = Some now
  ∧ (∃ before t a after,
        trace r.2 =
        trace w ++ before ++ exec_effects R source_ip t
        ++ [Stamp i now; HistoryAppend a] ++ after
        ∧ a ∈ r.1 ∧ contract_name a = name R
        ∧ (∀ t', Stamp i t' ∉ before)
        ∧ (∀ t', Stamp i t' ∉ exec_effects R source_ip t)
        ∧ (∀ t', Stamp i t' ∉ after))
  ∧ (∀ w', contracts (engine (_execute_action R source_ip confidence w').2)
           = contracts (engine w')).
Proof.
  intros Hi Hf now source_ip r. subst now source_ip r. split; [|split].
  - rewrite evaluate_contracts, list_lookup_fmap, Hi. cbn.
    unfold stamped. by rewrite Hf.
  - rewrite evaluate_unfold.
    destruct (loop_order alert_kind confidence (default "unknown" source_id)
                (clock w (ticks w)) (contracts (engine w)) []
                (mkWorld (engine w) (clock w) (S (ticks w)) (trace w))
                i R Hi Hf)
      as (before & t & a & after & Htr & Ha & Hn & Hb & Haf).
    exists before, t, a, after. repeat split; try done.
    intros t'. apply exec_effects_no_stamp.
  - intros w'. apply exec_contracts.
Qed.

Lemma stamp_follows_action_witness :
  contracts (engine fresh) !! 0%nat = Some auto_block
  ∧ fires "PORT_SCAN" (20 # 100) (clock fresh (ticks fresh)) auto_block = true
  ∧ last_triggered
      <$> contracts (engine (evaluate "PORT_SCAN" (20 # 100) (Some "10.0.0.6")
                                      fresh).2) !! 0%nat
    = Some (clock fresh (ticks fresh)).
Proof.
  assert (fires "PORT_SCAN" (20 # 100) (clock fresh (ticks fresh)) auto_block
          = true) as Hf by (vm_compute; reflexivity).
  split; [reflexivity|]. split; [exact Hf|].
  exact (proj1 (stamp_follows_action fresh "PORT_SCAN" (20 # 100)
                  (Some "10.0.0.6") 0 auto_block eq_refl Hf)).
Defined.

(** C3, as stated, fails: when the block rule alone fires, nothing the
    action does comes after the stamp; the source was put on the blocklist
    and the console line written before [last_triggered] changed. *)
Lemma stamp_not_before_effects :
  ¬ stamped_before_effects_complete
      (trace (evaluate "PORT_SCAN" (20 # 100) (Some "10.0.0.6") fresh).2) 0.
Proof.
  assert (∃ line t a,
             trace (evaluate "PORT_SCAN" (20 # 100) (Some "10.0.0.6") fresh).2
             = [BlocklistAdd "10.0.0.6"; Print line; Stamp 0 t; HistoryAppend a])
    as (line & t & a & ->) by (do 3 eexists; reflexivity).
  intros (pre & t' & post & e & Heq & Hin & Hact).
  destruct pre as [|e0 [|e1 [|e2 [|e3 [|e4 pre]]]]]; simplify_eq/=.
  apply list_elem_of_singleton in Hin. by subst e.
Qed.

(** ** The default source *)

(** C10.  A call of [evaluate] that leaves the source out is the call with
    source ["unknown"]: it returns the same records and the same world;
    every record it returns carries ["unknown"] as its [source_ip]; the
    blocklist and the rate-limit map change at the key ["unknown"] only; a
    block rule that fires puts ["unknown"] on the blocklist and a rate-limit
    rule that fires sets the expiry of ["unknown"]. *)
Theorem evaluate_default_source (w : World) (alert_kind : string)
    (confidence : Q) :
  let r := evaluate alert_kind confidence None w in
  let fires' := fires alert_kind confidence (clock w (ticks w)) in
  r = evaluate alert_kind confidence (Some "unknown") w
  ∧ Forall (λ a, details a !! "source_ip" = Some (PyStr "unknown")) r.1
  ∧ (∀ ip, ip ≠ "unknown" →
           (ip ∈ blocked_ips (engine r.2) ↔ ip ∈ blocked_ips (engine w))
           ∧ rate_limited (engine r.2) !! ip = rate_limited (engine w) !! ip)
  ∧ ((∃ R, R ∈ contracts (engine w) ∧ action R = BLOCK_IP ∧ fires' R = true) →
     "unknown" ∈ blocked_ips (engine r.2))
  ∧ ((∃ R, R ∈ contracts (engine w) ∧ action R = RATE_LIMIT ∧ fires' R = true) →
     ∃ k, rate_limited (engine r.2) !! "unknown" = Some (clock w k + 300)%Q).
Proof.
  intros r fires'. subst r fires'.
  split; [reflexivity|]. rewrite evaluate_unfold. cbn [default from_option id].
  destruct (loop_stores alert_kind confidence "unknown" (clock w (ticks w))
              (contracts (engine w)) 0 []
              (mkWorld (engine w) (clock w) (S (ticks w)) (trace w)))
    as (_ & _ & Hsub & Hsup & Hrl & Hsrc).
  cbn [engine] in Hsub, Hsup, Hrl.
  split; [by apply Hsrc|]. split; [|split].
  - intros ip Hip. split; [|by apply Hrl]. set_solver.
  - apply loop_blocks.
  - intros Hex.
    destruct (loop_rate_limit alert_kind confidence "unknown"
                (clock w (ticks w)) (contracts (engine w)) 0 []
                (mkWorld (engine w) (clock w) (S (ticks w)) (trace w)) Hex)
      as (k & _ & Hk).
    by exists k.
Qed.

(** ** The scenarios of the specification *)

(** A rate-limit rule on an anomaly at confidence 0.10: one record, and the
    source limited for 300 seconds. *)
Example scenario_rate_limit :
  let r := evaluate "AI_ANOMALY_DETECTED" (10 # 100) (Some "10.0.0.5")
                    (single rate_limit_on_anomaly (ticking 1000)) in
  contract_name <$> r.1 = ["Rate Limit on Anomaly"]
  ∧ rate_limited (engine r.2) !! "10.0.0.5" = Some (1001 + 300)%Q.
Proof. split; reflexivity. Qed.

(** The block rule at confidence 0.10, not above its threshold 0.15: no
    record. *)
Example scenario_block_below_threshold :
  (evaluate "AI_ANOMALY_DETECTED" (10 # 100) (Some "10.0.0.6")
            (single auto_block (ticking 1000))).1 = [].
Proof. reflexivity. Qed.

(** The block rule at confidence 0.20: one record and the source blocked;
    the same event ten seconds later: no record. *)
Example scenario_block_then_cooldown :
  let first := evaluate "AI_ANOMALY_DETECTED" (20 # 100) (Some "10.0.0.6")
                        (single auto_block ten_seconds_later) in
  let second := evaluate "AI_ANOMALY_DETECTED" (20 # 100) (Some "10.0.0.6")
                         first.2 in
  contract_name <$> first.1 = ["Auto-Block High Threat"]
  ∧ blocked_ips (engine first.2) = {["10.0.0.6"]}
  ∧ clock first.2 (ticks first.2) = 1010%Q
  ∧ second.1 = []
  ∧ engine second.2 = engine first.2.
Proof. repeat split; vm_compute; reflexivity. Qed.

(** The status after the first scenario; entries of the rate-limit map
    count whether or not their expiry has passed. *)
Example scenario_status :
  let r := evaluate "AI_ANOMALY_DETECTED" (10 # 100) (Some "10.0.0.5") fresh in
  let st := (get_status r.2).1 in
  total_contracts st = 3%nat
  ∧ enabled_contracts st = 3%nat
  ∧ status_blocked_ips st = []
  ∧ rate_limited_count st = 1%nat
  ∧ total_actions_executed st = 2%nat
  ∧ ra_contract <$> recent_actions st
    = ["Rate Limit on Anomaly"; "Network Alert Broadcast"].
Proof. repeat split; vm_compute; reflexivity. Qed.

(** * Further properties of the engine *)

(** ** The listing of the rules *)

Lemma contract_info_stamped (alert_type : string) (confidence current_time : Q)
    (c : Contract) :
  contract_info (stamped alert_type confidence current_time c) = contract_info c.
Proof. unfold stamped. by destruct (fires _ _ _ c). Qed.

Lemma contract_infos_stamped (alert_type : string)
    (confidence current_time : Q) (cs : list Contract) :
  contract_info <$> (stamped alert_type confidence current_time <$> cs)
  = contract_info <$> cs.
Proof.
  induction cs as [|c cs IH]; [done|].
  rewrite !fmap_cons, IH. by rewrite contract_info_stamped.
Qed.

Lemma run_contract_infos (calls : list Call) : ∀ w,
  contract_info <$> contracts (engine (run calls w))
  = contract_info <$> contracts (engine w).
Proof.
  induction calls as [|[[a q] s] calls IH]; intros w; [done|].
  cbn [run]. by rewrite IH, evaluate_contracts, contract_infos_stamped.
Qed.

(** X1.  The listing [get_contracts_info] gives is a pure read, and no
    sequence of [evaluate] calls changes it: evaluation never adds, drops,
    reorders, renames, retunes or toggles a rule. *)
Theorem contracts_info_stable (calls : list Call) (w : World) :
  (get_contracts_info (run calls w)).1 = (get_contracts_info w).1
  ∧ (get_contracts_info w).2 = w.
Proof. split; [apply run_contract_infos | done]. Qed.

Lemma ActionType_value_inj (a b : ActionType) :
  ActionType_value a = ActionType_value b → a = b.
Proof. by destruct a, b. Qed.

Lemma TriggerType_value_inj (a b : TriggerType) :
  TriggerType_value a = TriggerType_value b → a = b.
Proof. by destruct a, b. Qed.

(** X2.  The listing loses nothing of a rule but its [last_triggered]: two
    rules have the same entry exactly when they agree on every other
    field, the value strings of the two enumerations being distinct. *)
Theorem contract_info_faithful (c c' : Contract) :
  contract_info c = contract_info c'
  ↔ c' = set_last_triggered (last_triggered c') c.
Proof.
  destruct c as [n a t th cd en lt], c' as [n' a' t' th' cd' en' lt'].
  unfold contract_info, set_last_triggered. cbn. split.
  - intros [= -> Ha Ht -> -> ->].
    apply ActionType_value_inj in Ha as ->.
    by apply TriggerType_value_inj in Ht as ->.
  - by intros [= -> -> -> -> -> ->].
Qed.

(** X3.  A call of [evaluate] changes the rules in one way only: the rules
    that pass the guards get the time the call read on entry as their
    [last_triggered]; every other rule, and every other field, stays, and
    so does the order of the store. *)
Theorem evaluate_stamps_firing_rules (w : World) (alert_type : string)
    (confidence : Q) (source_ip : option string) :
  let now := clock w (ticks w) in
  contracts (engine (evaluate alert_type confidence source_ip w).2)
  = (λ c, if fires alert_type confidence now c
          then set_last_triggered now c else c) <$> contracts (engine w).
Proof. apply evaluate_contracts. Qed.

(** ** The history *)

Lemma run_history (calls : list Call) : ∀ w,
  action_history (engine (run calls w))
  = action_history (engine w) ++ run_records calls w.
Proof.
  induction calls as [|[[a q] s] calls IH]; intros w; cbn [run run_records].
  - by rewrite app_nil_r.
  - by rewrite IH, evaluate_history, app_assoc.
Qed.

(** X4.  The history is append-only and complete: after any sequence of
    calls it is the history before, followed by every record the calls
    returned, in the order they were returned. *)
Theorem history_is_all_returned (calls : list Call) (w : World) :
  action_history (engine (run calls w))
  = action_history (engine w) ++ run_records calls w.
Proof. apply run_history. Qed.

(** ** The records returned *)

Lemma exec_record_of (c : Contract) (source_ip : string) (confidence : Q)
    (w : World) :
  record_of confidence source_ip
            (_execute_action c source_ip confidence w).1 c.
Proof.
  unfold record_of, _execute_action.
  destruct (action c); cbn; repeat split; eauto.
Qed.

Lemma loop_records (alert_type : string) (confidence : Q)
    (source_ip : string) (current_time : Q) (cs : list Contract) :
  ∀ i executed w pre,
    Forall2 (record_of confidence source_ip) executed pre →
    Forall2 (record_of confidence source_ip)
            (eval_loop alert_type confidence source_ip current_time i cs
                       executed w).1
            (pre ++ filter (λ c, fires alert_type confidence current_time c
                                 = true) cs).
Proof.
  induction cs as [|c cs IH]; intros i executed w pre Hpre.
  - cbn. by rewrite app_nil_r.
  - rewrite loop_cons.
    destruct (fires alert_type confidence current_time c) eqn:Hc.
    + rewrite body_fires by done. cbn [fst snd].
      rewrite filter_cons_True by done.
      rewrite (cons_middle c pre), (assoc_L (++) pre). apply IH.
      apply Forall2_app; [done|].
      constructor; [apply exec_record_of | constructor].
    + rewrite body_skips by done.
      rewrite filter_cons_False by (by rewrite Hc). by apply IH.
Qed.

(** X5.  The sequence [evaluate] returns holds one record for each rule
    that passes the guards, in the order of the store and with no gap: no
    rule stops the others from firing.  Each record carries the name and
    the action of its rule, the source of the call, the confidence rounded
    to four digits, the [simulated] flag and a message. *)
Theorem evaluate_returns_firing_rules (w : World) (alert_type : string)
    (confidence : Q) (source_ip : option string) :
  Forall2 (record_of confidence (default "unknown" source_ip))
          (evaluate alert_type confidence source_ip w).1
          (filter (λ c, fires alert_type confidence (clock w (ticks w)) c = true)
                  (contracts (engine w))).
Proof.
  rewrite evaluate_unfold.
  apply (loop_records _ _ _ _ _ _ _ _ []). constructor.
Qed.

(** ** The blocklist and the rate-limit map *)

Section Frames.

Variables (alert_type : string) (confidence : Q) (source_ip : string).
Variable current_time : Q.

Local Abbreviation loop :=
  (eval_loop alert_type confidence source_ip current_time).
Local Abbreviation fires' := (fires alert_type confidence current_time).

Lemma loop_no_block cs : ∀ i executed w,
  (∀ c, c ∈ cs → fires' c = true → action c ≠ BLOCK_IP) →
  blocked_ips (engine (loop i cs executed w).2) = blocked_ips (engine w).
Proof.
  induction cs as [|c cs IH]; intros i executed w Hcs; [done|].
  rewrite loop_cons, IH, body_blocked_ips.
  - pose proof (Hcs c (list_elem_of_here _ _)) as Hc.
    destruct (fires' c); [|done]. by destruct (action c); try done; destruct Hc.
  - intros c' Hin. apply Hcs. by apply list_elem_of_further.
Qed.

Lemma loop_no_rate_limit cs : ∀ i executed w,
  (∀ c, c ∈ cs → fires' c = true → action c ≠ RATE_LIMIT) →
  rate_limited (engine (loop i cs executed w).2) = rate_limited (engine w).
Proof.
  induction cs as [|c cs IH]; intros i executed w Hcs; [done|].
  rewrite loop_cons, IH, body_rate_limited.
  - pose proof (Hcs c (list_elem_of_here _ _)) as Hc.
    destruct (fires' c); [|done]. by destruct (action c); try done; destruct Hc.
  - intros c' Hin. apply Hcs. by apply list_elem_of_further.
Qed.

Lemma loop_rate_limited_dom cs : ∀ i executed w,
  dom (rate_limited (engine w))
  ⊆ dom (rate_limited (engine (loop i cs executed w).2)).
Proof.
  induction cs as [|c cs IH]; intros i executed w; [done|].
  rewrite loop_cons. etrans; [|apply IH]. rewrite body_rate_limited.
  destruct (fires' c); [|done]. destruct (action c); try done.
  apply dom_insert_subseteq.
Qed.

End Frames.

Lemma run_stores (calls : list Call) : ∀ w,
  blocked_ips (engine w) ⊆ blocked_ips (engine (run calls w))
  ∧ dom (rate_limited (engine w)) ⊆ dom (rate_limited (engine (run calls w))).
Proof.
  induction calls as [|[[a q] s] calls IH]; intros w; [done|].
  cbn [run]. destruct (IH (evaluate a q s w).2) as [Hb Hr].
  rewrite evaluate_unfold in Hb, Hr |- *.
  destruct (loop_stores a q (default "unknown" s) (clock w (ticks w))
              (contracts (engine w)) 0 []
              (mkWorld (engine w) (clock w) (S (ticks w)) (trace w)))
    as (_ & _ & Hsub & _).
  pose proof (loop_rate_limited_dom a q (default "unknown" s)
                (clock w (ticks w)) (contracts (engine w)) 0 []
                (mkWorld (engine w) (clock w) (S (ticks w)) (trace w))) as Hdom.
  cbn [engine] in Hsub, Hdom. split; by etrans.
Qed.

(** X6.  Nothing is ever taken off the blocklist or out of the rate-limit
    map: after any sequence of calls every source that was blocked is still
    blocked and every source that had an expiry still has one. *)
Theorem stores_only_grow (calls : list Call) (w : World) :
  blocked_ips (engine w) ⊆ blocked_ips (engine (run calls w))
  ∧ dom (rate_limited (engine w)) ⊆ dom (rate_limited (engine (run calls w))).
Proof. apply run_stores. Qed.

(** X7.  A call of [evaluate] touches the blocklist and the rate-limit map
    at the source of the call only; it leaves the blocklist as it is unless
    a [BLOCK_IP] rule fires, in which case the source is added to it, and
    the rate-limit map as it is unless a [RATE_LIMIT] rule fires. *)
Theorem evaluate_store_frame (w : World) (alert_type : string)
    (confidence : Q) (source_ip : option string) :
  let r := evaluate alert_type confidence source_ip w in
  let fires' := fires alert_type confidence (clock w (ticks w)) in
  (∀ ip, ip ≠ default "unknown" source_ip →
         (ip ∈ blocked_ips (engine r.2) ↔ ip ∈ blocked_ips (engine w))
         ∧ rate_limited (engine r.2) !! ip = rate_limited (engine w) !! ip)
  ∧ ((∀ c, c ∈ contracts (engine w) → fires' c = true → action c ≠ BLOCK_IP) →
     blocked_ips (engine r.2) = blocked_ips (engine w))
  ∧ ((∃ c, c ∈ contracts (engine w) ∧ action c = BLOCK_IP ∧ fires' c = true) →
     blocked_ips (engine r.2)
     = {[default "unknown" source_ip]} ∪ blocked_ips (engine w))
  ∧ ((∀ c, c ∈ contracts (engine w) → fires' c = true → action c ≠ RATE_LIMIT) →
     rate_limited (engine r.2) = rate_limited (engine w)).
Proof.
  intros r fires'. subst r fires'. rewrite evaluate_unfold.
  destruct (loop_stores alert_type confidence (default "unknown" source_ip)
              (clock w (ticks w)) (contracts (engine w)) 0 []
              (mkWorld (engine w) (clock w) (S (ticks w)) (trace w)))
    as (_ & _ & Hsub & Hsup & Hrl & _).
  cbn [engine] in Hsub, Hsup, Hrl.
  split; [|split; [|split]].
  - intros ip Hip. split; [|by apply Hrl]. set_solver.
  - intros Hcs. by rewrite loop_no_block.
  - intros Hex.
    pose proof (loop_blocks alert_type confidence
                  (default "unknown" source_ip) (clock w (ticks w))
                  (contracts (engine w)) 0 []
                  (mkWorld (engine w) (clock w) (S (ticks w)) (trace w)) Hex).
    set_solver.
  - intros Hcs. by rewrite loop_no_rate_limit.
Qed.

Lemma evaluate_store_frame_witness :
  (∀ c, c ∈ contracts (engine fresh) →
        fires "PORT_SCAN" (20 # 100) (clock fresh (ticks fresh)) c = true →
        action c ≠ RATE_LIMIT)
  ∧ rate_limited
      (engine (evaluate "PORT_SCAN" (20 # 100) (Some "10.0.0.6") fresh).2)
    = rate_limited (engine fresh).
Proof.
  assert (∀ c, c ∈ contracts (engine fresh) →
               fires "PORT_SCAN" (20 # 100) (clock fresh (ticks fresh)) c = true →
               action c ≠ RATE_LIMIT) as H.
  { intros c Hc Hf. cbn in Hc.
    repeat (apply elem_of_cons in Hc as [->|Hc]); try discriminate.
    by apply elem_of_nil in Hc. }
  split; [exact H|].
  exact (proj2 (proj2 (proj2 (evaluate_store_frame fresh "PORT_SCAN"
                                (20 # 100) (Some "10.0.0.6")))) H).
Defined.

(** ** Timestamps *)

(** The timestamp of a record is the last reading the executor takes. *)
Lemma exec_timestamp (c : Contract) (source_ip : string) (confidence : Q)
    (w : World) :
  ∃ k, ticks w ≤ k < ticks (_execute_action c source_ip confidence w).2
       ∧ timestamp (_execute_action c source_ip confidence w).1 = clock w k.
Proof.
  unfold _execute_action. destruct (action c); cbn.
  2: exists (S (ticks w)); split; [lia|done].
  all: exists (ticks w); split; [lia|done].
Qed.

Lemma body_settled (alert_type : string) (confidence : Q) (source_ip : string)
    (current_time : Q) (i : nat) (c : Contract)
    (executed : list ExecutedAction) (w : World) :
  monotone (clock w) → settled w →
  settled (eval_contract alert_type confidence source_ip current_time i c
                         executed w).2.
Proof.
  intros Hmono [Hsorted Hpast]. unfold settled.
  destruct (fires alert_type confidence current_time c) eqn:Hc.
  2: by rewrite body_skips.
  rewrite body_fires by done. cbn [snd engine action_history clock ticks].
  rewrite exec_action_history, exec_clock.
  destruct (exec_timestamp c source_ip confidence w) as (k & Hk & Hts).
  split.
  - apply StronglySorted_app_2; [|done|by repeat constructor].
    intros a b Ha ->%list_elem_of_singleton. rewrite Hts.
    apply (proj1 (Forall_forall _ _) Hpast) in Ha.
    eapply Qle_trans; [exact Ha|]. apply Hmono. lia.
  - apply Forall_app. split.
    + eapply Forall_impl; [exact Hpast|]. intros a Ha. cbn in Ha |- *.
      eapply Qle_trans; [exact Ha|]. apply Hmono. lia.
    + apply Forall_singleton. rewrite Hts. apply Hmono. lia.
Qed.

Lemma loop_settled (alert_type : string) (confidence : Q) (source_ip : string)
    (current_time : Q) (cs : list Contract) : ∀ i executed w,
  monotone (clock w) → settled w →
  settled (eval_loop alert_type confidence source_ip current_time i cs
                     executed w).2.
Proof.
  induction cs as [|c cs IH]; intros i executed w Hmono Hw; [done|].
  rewrite loop_cons. apply IH.
  - by rewrite body_clock.
  - by apply body_settled.
Qed.

Lemma evaluate_settled (alert_type : string) (confidence : Q)
    (source_ip : option string) (w : World) :
  monotone (clock w) → settled w →
  settled (evaluate alert_type confidence source_ip w).2.
Proof.
  intros Hmono [Hsorted Hpast]. rewrite evaluate_unfold.
  apply loop_settled; [done|]. split; [done|]. cbn.
  eapply Forall_impl; [exact Hpast|]. intros a Ha. cbn in Ha |- *.
  eapply Qle_trans; [exact Ha|]. apply Hmono. lia.
Qed.

Lemma run_settled (calls : list Call) : ∀ w,
  monotone (clock w) → settled w → settled (run calls w).
Proof.
  induction calls as [|[[a q] s] calls IH]; intros w Hmono Hw; [done|].
  cbn [run]. apply IH.
  - by rewrite evaluate_clock.
  - by apply evaluate_settled.
Qed.

(** X8.  With a clock that never runs backwards, the history stays in the
    order of its timestamps: if it is in order and holds no record later
    than the present, it is in order after any sequence of calls. *)
Theorem history_stays_chronological (calls : list Call) (w : World) :
  monotone (clock w) →
  chronological (action_history (engine w)) →
  Forall (λ a, (timestamp a <= clock w (ticks w))%Q)
         (action_history (engine w)) →
  chronological (action_history (engine (run calls w))).
Proof. intros Hmono Hsorted Hpast. by apply (run_settled calls w). Qed.

Lemma ticking_monotone (t0 : Z) : monotone (ticking t0).
Proof.
  intros m n Hmn. unfold ticking. rewrite <- Zle_Qle. lia.
Qed.

Lemma history_stays_chronological_witness :
  monotone (clock fresh)
  ∧ chronological (action_history (engine fresh))
  ∧ Forall (λ a, (timestamp a <= clock fresh (ticks fresh))%Q)
           (action_history (engine fresh))
  ∧ chronological (action_history (engine (run five_repeats fresh))).
Proof.
  assert (monotone (clock fresh)) as H1 by apply ticking_monotone.
  assert (chronological (action_history (engine fresh))) as H2 by constructor.
  assert (Forall (λ a, (timestamp a <= clock fresh (ticks fresh))%Q)
                 (action_history (engine fresh))) as H3 by constructor.
  split; [exact H1|]. split; [exact H2|]. split; [exact H3|].
  exact (history_stays_chronological five_repeats fresh H1 H2 H3).
Defined.

(** ** Status after a call *)




(** ** Rules that cannot fire *)

(** X10.  A disabled rule is inert: whatever the event and the time, a call
    of [evaluate] returns no record of it and leaves it as it is. *)
Theorem disabled_rule_is_inert (w : World) (alert_type : string)
    (confidence : Q) (source_ip : option string) (R : Contract) :
  NoDup (name <$> contracts (engine w)) →
  R ∈ contracts (engine w) →
  enabled R = false →
  ¬ fired R (evaluate alert_type confidence source_ip w).1
  ∧ R ∈ contracts (engine (evaluate alert_type confidence source_ip w).2).
Proof.
  intros Hnd HR Hen.
  assert (fires alert_type confidence (clock w (ticks w)) R = false) as Hf.
  { unfold fires. by rewrite Hen. }
  split.
  - rewrite fired_iff_fires by done. by rewrite Hf.
  - rewrite evaluate_contracts. apply list_elem_of_fmap. exists R.
    split; [|done]. unfold stamped. by rewrite Hf.
Qed.

Lemma disabled_rule_is_inert_witness :
  let muted := mkContract "Network Alert Broadcast" ALERT_NETWORK
                          ANOMALY_DETECTED 0 10 false 0 in
  NoDup (name <$> contracts (engine quiet))
  ∧ muted ∈ contracts (engine quiet)
  ∧ enabled muted = false
  ∧ ¬ fired muted
        (evaluate "AI_ANOMALY_DETECTED" (20 # 100) (Some "10.0.0.6") quiet).1.
Proof.
  intros muted.
  assert (NoDup (name <$> contracts (engine quiet))) as H1.
  { apply (bool_decide_unpack _). vm_compute. exact I. }
  assert (muted ∈ contracts (engine quiet)) as H2.
  { apply list_elem_of_lookup. exists 2%nat. reflexivity. }
  split; [exact H1|]. split; [exact H2|]. split; [reflexivity|].
  exact (proj1 (disabled_rule_is_inert quiet "AI_ANOMALY_DETECTED" (20 # 100)
                  (Some "10.0.0.6") muted H1 H2 eq_refl)).
Defined.

(** X11.  A rule that has never fired has [last_triggered] 0 and is treated
    as one that fired at the epoch: on a qualifying event it fires exactly
    when the clock reads at least its cooldown. *)
Theorem never_triggered_rule (w : World) (alert_type : string)
    (confidence : Q) (source_ip : option string) (R : Contract) :
  NoDup (name <$> contracts (engine w)) →
  R ∈ contracts (engine w) →
  last_triggered R = 0%Q →
  enabled R = true →
  trigger_spec alert_type confidence R →
  (threshold R <= confidence)%Q →
  fired R (evaluate alert_type confidence source_ip w).1
  ↔ (inject_Z (cooldown R) <= clock w (ticks w))%Q.
Proof.
  intros Hnd HR Hlast Hen Htrig Hthr.
  rewrite fired_iff_fires, fires_spec, Hlast by done. split.
  - intros (_ & Hcool & _). lra.
  - intros Hcool. repeat split; try done. lra.
Qed.

Lemma never_triggered_rule_witness :
  NoDup (name <$> contracts (engine fresh))
  ∧ rate_limit_on_anomaly ∈ contracts (engine fresh)
  ∧ last_triggered rate_limit_on_anomaly = 0%Q
  ∧ enabled rate_limit_on_anomaly = true
  ∧ trigger_spec "AI_ANOMALY_DETECTED" (10 # 100) rate_limit_on_anomaly
  ∧ (threshold rate_limit_on_anomaly <= 10 # 100)%Q
  ∧ (fired rate_limit_on_anomaly
           (evaluate "AI_ANOMALY_DETECTED" (10 # 100) (Some "10.0.0.5") fresh).1
     ↔ (inject_Z (cooldown rate_limit_on_anomaly)
        <= clock fresh (ticks fresh))%Q).
Proof.
  assert (NoDup (name <$> contracts (engine fresh))) as H1.
  { apply (bool_decide_unpack _). vm_compute. exact I. }
  assert (rate_limit_on_anomaly ∈ contracts (engine fresh)) as H2.
  { apply list_elem_of_lookup. exists 1%nat. reflexivity. }
  assert (trigger_spec "AI_ANOMALY_DETECTED" (10 # 100) rate_limit_on_anomaly)
    as H3 by (exists "AI_", "_DETECTED"; reflexivity).
  assert (threshold rate_limit_on_anomaly <= 10 # 100)%Q as H4.
  { vm_compute. discriminate. }
  split; [exact H1|]. split; [exact H2|]. split; [reflexivity|].
  split; [reflexivity|]. split; [exact H3|]. split; [exact H4|].
  exact (never_triggered_rule fresh "AI_ANOMALY_DETECTED" (10 # 100)
           (Some "10.0.0.5") rate_limit_on_anomaly H1 H2 eq_refl eq_refl H3 H4).
Defined.

(** ** The recorded confidence *)



(** ** The time of a call and the times it leaves behind *)

Lemma loop_timestamps (alert_type : string) (confidence : Q)
    (source_ip : string) (current_time : Q) (clk : nat → Q) (t0 : nat)
    (cs : list Contract) : ∀ i executed w,
  clock w = clk → t0 ≤ ticks w →
  Forall (λ a, ∃ k, t0 ≤ k < ticks w ∧ timestamp a = clk k) executed →
  let r := eval_loop alert_type confidence source_ip current_time i cs
                     executed w in
  Forall (λ a, ∃ k, t0 ≤ k < ticks r.2 ∧ timestamp a = clk k) r.1.
Proof.
  induction cs as [|c cs IH]; intros i executed w Hclk Ht0 Hex; [done|].
  cbn zeta. rewrite loop_cons.
  pose proof (body_ticks alert_type confidence source_ip current_time
                i c executed w) as Hticks.
  apply IH.
  - by rewrite body_clock.
  - lia.
  - rewrite body_executed. apply Forall_app. split.
    + eapply Forall_impl; [exact Hex|].
      intros a (k & Hk & Ha). exists k. split; [lia|done].
    + destruct (fires alert_type confidence current_time c) eqn:Hc;
        [|constructor].
      apply Forall_singleton. rewrite body_fires by done. cbn [snd ticks].
      destruct (exec_timestamp c source_ip confidence w) as (k & Hk & Hts).
      exists k. split; [lia|]. by rewrite Hts, Hclk.
Qed.

(** X13.  With a clock that never runs backwards, what a call leaves behind
    is not earlier than the call: no record it returns has a timestamp
    before the time the call read on entry (the time it stamps on the rules
    that fire), and when a [RATE_LIMIT] rule fires the source is limited
    until 300 seconds after that time at least. *)
Theorem call_time_is_earliest (w : World) (alert_type : string)
    (confidence : Q) (source_ip : option string) :
  monotone (clock w) →
  let now := clock w (ticks w) in
  let r := evaluate alert_type confidence source_ip w in
  Forall (λ a, (now <= timestamp a)%Q) r.1
  ∧ ((∃ R, R ∈ contracts (engine w) ∧ action R = RATE_LIMIT
           ∧ fires alert_type confidence now R = true) →
     ∃ t, rate_limited (engine r.2) !! default "unknown" source_ip = Some t
          ∧ (now + 300 <= t)%Q).
Proof.
  intros Hmono now r. subst now r. rewrite evaluate_unfold. split.
  - eapply Forall_impl.
    + apply (loop_timestamps alert_type confidence
               (default "unknown" source_ip) (clock w (ticks w)) (clock w)
               (S (ticks w)) (contracts (engine w)) 0 []
               (mkWorld (engine w) (clock w) (S (ticks w)) (trace w)));
        [done|done|constructor].
    + intros a (k & Hk & ->). apply Hmono. lia.
  - intros Hex.
    destruct (loop_rate_limit alert_type confidence
                (default "unknown" source_ip) (clock w (ticks w))
                (contracts (engine w)) 0 []
                (mkWorld (engine w) (clock w) (S (ticks w)) (trace w)) Hex)
      as (k & Hk & Hlk).
    cbn [ticks clock] in Hk, Hlk.
    exists (clock w k + 300)%Q. split; [done|].
    assert (clock w (ticks w) <= clock w k)%Q by (apply Hmono; lia). lra.
Qed.

Lemma call_time_is_earliest_witness :
  monotone (clock fresh)
  ∧ Forall (λ a, (clock fresh (ticks fresh) <= timestamp a)%Q)
           (evaluate "AI_ANOMALY_DETECTED" (10 # 100) (Some "10.0.0.5")
                     fresh).1.
Proof.
  assert (monotone (clock fresh)) as H by apply ticking_monotone.
  split; [exact H|].
  exact (proj1 (call_time_is_earliest fresh "AI_ANOMALY_DETECTED" (10 # 100)
                  (Some "10.0.0.5") H)).
Defined.
